(** * A shallow embedding of the Bloom filter of [bloom.go]

    The Go package keeps one mutable [BloomFilter] behind a pointer
    receiver.  Every method is embedded as a computation in a small
    state-and-panic monad over the pointed-to struct: a method that
    returns the receiver returns the filter it designates, a run-time
    panic (integer division by zero) is the result [None].

    Conventions.
    - [uint] is the 64-bit unsigned integer of the usual Go targets; values
      are [Z] with the wrap-around written where the code converts.
    - [murmur3.New64 / Write / Sum64] is an external hash; it is a section
      variable [Sum64 : list byte -> Z].
    - [bitset.BitSet] is an external bit array; module [BitSet] below
      models it as a dense list of booleans.
    - Memory is unbounded: allocation never fails. *)

From Stdlib Require Import ZArith Lia List Bool.
From Stdlib Require Import Strings.String Strings.Byte.
From stdpp Require Import base tactics option list numbers.

Open Scope Z_scope.

(** ** Machine integers *)

Definition uint_bits : Z := 64.
Definition uint_modulus : Z := 2 ^ uint_bits.

(** A value of Go type [uint] (or [uint64]). *)
Definition is_uint (z : Z) : Prop := 0 <= z < uint_modulus.

(** The conversions [uint(x)] and [uint64(x)]. *)
Definition to_uint (z : Z) : Z := z mod uint_modulus.
Definition to_uint64 (z : Z) : Z := z mod 2 ^ 64.

(** The conversion [(byte)(x)]: the low eight bits. *)
Definition to_byte (z : Z) : byte :=
  match Byte.of_N (Z.to_N (z mod 256)) with
  | Some c => c
  | None => x00
  end.

Definition byte_val (c : byte) : Z := Z.of_N (Byte.to_N c).

(** The [n]-byte little-endian encoding of [z]: the [n] low base-256
    digits, least significant first. *)
Fixpoint le_encode (n : nat) (z : Z) : list byte :=
  match n with
  | O => []
  | S n' => to_byte (z mod 256) :: le_encode n' (z / 256)
  end.

(** The value a little-endian byte string denotes. *)
Fixpoint le_value (bs : list byte) : Z :=
  match bs with
  | [] => 0
  | c :: bs' => byte_val c + 256 * le_value bs'
  end.

(** [func uintToBytes(value uint) []byte] *)
Definition uintToBytes (value : Z) : list byte :=
  [ to_byte value;
    to_byte (Z.shiftr value 8);
    to_byte (Z.shiftr value 16);
    to_byte (Z.shiftr value 24) ].

(** [func max(x, y uint) uint] *)
Definition max (x y : Z) : Z := if y <? x then x else y.

(** ** The bit array *)

(** Modelled from the spec: the bit-array primitive
    ([github.com/willf/bitset]) is a dependency that is not part of the
    repository.  The spec describes it as an array of single-bit cells,
    all initially cleared, with indexed get, indexed set and whole-array
    clear.  Reading at or beyond the length yields [false]; setting at
    or beyond the length first grows the array with cleared cells. *)
Module BitSet.

Abbreviation t := (list bool).

Definition Len (b : t) : Z := Z.of_nat (length b).

Definition New (len : Z) : t := replicate (Z.to_nat len) false.

Definition Test (b : t) (i : Z) : bool :=
  match b !! Z.to_nat i with
  | Some c => c
  | None => false
  end.

Definition extendSetMaybe (b : t) (i : Z) : t :=
  if Len b <=? i
  then b ++ replicate (Z.to_nat i + 1 - length b)%nat false
  else b.

Definition SetBit (b : t) (i : Z) : t :=
  <[Z.to_nat i := true]> (extendSetMaybe b i).

Definition ClearAll (b : t) : t := replicate (length b) false.

End BitSet.

(** ** The filter *)

Record BloomFilter := mkBloomFilter {
  m : Z;
  k : Z;
  b : BitSet.t
}.

(** The value [errors.New(msg)]. *)
Inductive error := errors_New (msg : string).

(** The errors of construction, which the specification calls
    [InvalidParameter]. *)
Definition InvalidParameter (e : error) : Prop :=
  e = errors_New "New m < 1" \/ e = errors_New "New k < 1".

(** [func New(m uint, k uint)], which returns a filter pointer and an
    error: the two results are kept as the pair Go returns, [None]
    standing for [nil]. *)
Definition New (m k : Z) : option BloomFilter * option error :=
  if m <? 1 then (None, Some (errors_New "New m < 1"))
  else if k <? 1 then (None, Some (errors_New "New k < 1"))
  else (Some (mkBloomFilter m k (BitSet.New m)), None).

(** ** The monad of the methods *)

Definition M (A : Type) : Type := BloomFilter -> option (A * BloomFilter).

Definition ret {A} (a : A) : M A := fun f => Some (a, f).

Definition bind {A B} (c : M A) (g : A -> M B) : M B :=
  fun f => match c f with
           | Some (a, f') => g a f'
           | None => None
           end.

Definition panic {A} : M A := fun _ => None.

Declare Scope bloom_scope.
Delimit Scope bloom_scope with bloom.
Notation "'let!' x ':=' c 'in' d" := (bind c (fun x => d))
  (at level 10, x name, c at level 100, d at level 200) : bloom_scope.
Notation "'do!' c 'in' d" := (bind c (fun _ => d))
  (at level 10, c at level 100, d at level 200) : bloom_scope.
Open Scope bloom_scope.

(** Reads of the receiver's fields, and the receiver itself. *)
Definition get_m : M Z := fun f => Some (m f, f).
Definition get_k : M Z := fun f => Some (k f, f).
Definition self : M BloomFilter := fun f => Some (f, f).

(** Calls on the bit array [f.b]. *)
Definition b_Test (i : Z) : M bool := fun f => Some (BitSet.Test (b f) i, f).
Definition b_Set (i : Z) : M unit :=
  fun f => Some (tt, mkBloomFilter (m f) (k f) (BitSet.SetBit (b f) i)).
Definition b_ClearAll : M unit :=
  fun f => Some (tt, mkBloomFilter (m f) (k f) (BitSet.ClearAll (b f))).

(** [x % y] on unsigned integers: panics when [y] is zero. *)
Definition umod (x y : Z) : M Z :=
  if y =? 0 then panic else ret (x mod y).

(** [[]byte(s)] for a Go string. *)
Definition bytes_of_string (s : string) : list byte := list_byte_of_string s.

Section Bloom.

(** [murmur3.New64()], one [Write] and [Sum64()]: the digest of the bytes
    written. *)
Variable Sum64 : list byte -> Z.

(** [func (f) location(data []byte, i uint) uint] *)
Definition location (data : list byte) (i : Z) : M Z :=
  let result := data ++ uintToBytes i in
  let! fm := get_m in
  umod (to_uint (Sum64 result)) fm.

(** [func (f) Cap() uint] *)
Definition Cap : M Z := get_m.

(** [func (f) HashFunctionNum() uint] *)
Definition HashFunctionNum : M Z := get_k.

(** The loop [for i := uint(0); i < f.k; i++] visits [0, 1, ..., f.k - 1]
    in order; no method body writes [f.k], and [i + 1] cannot wrap while
    [i < f.k].  The loops below recurse over that list of indices. *)
Definition rounds : M (list Z) := let! fk := get_k in ret (seqZ 0 fk).

Fixpoint Add_loop (data : list byte) (idx : list Z) : M unit :=
  match idx with
  | [] => ret tt
  | i :: idx' =>
      let! l := location data i in
      do! b_Set l in
      Add_loop data idx'
  end.

(** [func (f) Add(data []byte) *BloomFilter] *)
Definition Add (data : list byte) : M BloomFilter :=
  let! idx := rounds in
  do! Add_loop data idx in
  self.

(** [func (f) AddString(data string) *BloomFilter] *)
Definition AddString (data : string) : M BloomFilter :=
  Add (bytes_of_string data).

Fixpoint Test_loop (data : list byte) (idx : list Z) : M bool :=
  match idx with
  | [] => ret true
  | i :: idx' =>
      let! l := location data i in
      let! t := b_Test l in
      if negb t then ret false else Test_loop data idx'
  end.

(** [func (f) Test(data []byte) bool] *)
Definition Test (data : list byte) : M bool :=
  let! idx := rounds in
  Test_loop data idx.

(** [func (f) TestString(data string) bool] *)
Definition TestString (data : string) : M bool :=
  Test (bytes_of_string data).

(** The loop of [TestLocations] walks the slice [locs] from index 0. *)
Fixpoint TestLocations_loop (locs : list Z) : M bool :=
  match locs with
  | [] => ret true
  | p :: locs' =>
      let! fm := get_m in
      let! l := umod p (to_uint64 fm) in
      let! t := b_Test (to_uint l) in
      if negb t then ret false else TestLocations_loop locs'
  end.

(** [func (f) TestLocations(locs []uint64) bool] *)
Definition TestLocations (locs : list Z) : M bool :=
  TestLocations_loop locs.

Fixpoint TestAndAdd_loop (data : list byte) (present : bool) (idx : list Z)
  : M bool :=
  match idx with
  | [] => ret present
  | i :: idx' =>
      let! l := location data i in
      let! t := b_Test l in
      let present' := if negb t then false else present in
      do! b_Set l in
      TestAndAdd_loop data present' idx'
  end.

(** [func (f) TestAndAdd(data []byte) bool] *)
Definition TestAndAdd (data : list byte) : M bool :=
  let! idx := rounds in
  TestAndAdd_loop data true idx.

(** [func (f) TestAndAddString(data string) bool] *)
Definition TestAndAddString (data : string) : M bool :=
  TestAndAdd (bytes_of_string data).

(** [func (f) ClearAll() *BloomFilter] *)
Definition ClearAll : M BloomFilter :=
  do! b_ClearAll in
  self.

(** ** Calls and call sequences *)

Inductive op :=
| OpAdd (data : list byte)
| OpAddString (data : string)
| OpTest (data : list byte)
| OpTestString (data : string)
| OpTestAndAdd (data : list byte)
| OpTestAndAddString (data : string)
| OpTestLocations (locs : list Z)
| OpCap
| OpHashFunctionNum
| OpClearAll.

Inductive value :=
| VFilter (f : BloomFilter)
| VBool (r : bool)
| VUint (n : Z).

(** The methods whose bodies contain no write. *)
Definition is_query (o : op) : bool :=
  match o with
  | OpTest _ | OpTestString _ | OpTestLocations _ | OpCap
  | OpHashFunctionNum => true
  | _ => false
  end.

Definition call (o : op) : M value :=
  match o with
  | OpAdd data => let! r := Add data in ret (VFilter r)
  | OpAddString data => let! r := AddString data in ret (VFilter r)
  | OpTest data => let! r := Test data in ret (VBool r)
  | OpTestString data => let! r := TestString data in ret (VBool r)
  | OpTestAndAdd data => let! r := TestAndAdd data in ret (VBool r)
  | OpTestAndAddString data =>
      let! r := TestAndAddString data in ret (VBool r)
  | OpTestLocations locs => let! r := TestLocations locs in ret (VBool r)
  | OpCap => let! r := Cap in ret (VUint r)
  | OpHashFunctionNum => let! r := HashFunctionNum in ret (VUint r)
  | OpClearAll => let! r := ClearAll in ret (VFilter r)
  end.

Fixpoint calls (os : list op) : M (list value) :=
  match os with
  | [] => ret []
  | o :: os' =>
      let! v := call o in
      let! vs := calls os' in
      ret (v :: vs)
  end.

(** The filters a client can hold: built by [New], then used through the
    methods. *)
Inductive reachable : BloomFilter -> Prop :=
| reach_New fm fk f :
    is_uint fm -> is_uint fk -> New fm fk = (Some f, None) -> reachable f
| reach_call f o v f' :
    reachable f -> call o f = Some (v, f') -> reachable f'.

(** ** What the loops compute *)

(** The position of round [i] in an array of [fm] cells. *)
Definition position (fm : Z) (data : list byte) (i : Z) : Z :=
  to_uint (Sum64 (data ++ uintToBytes i)) mod fm.

Definition positions (f : BloomFilter) (data : list byte) : list Z :=
  map (position (m f) data) (seqZ 0 (k f)).

End Bloom.

Definition with_bits (f : BloomFilter) (bs : BitSet.t) : BloomFilter :=
  mkBloomFilter (m f) (k f) bs.

Definition set_all (bs : BitSet.t) (ls : list Z) : BitSet.t :=
  foldl BitSet.SetBit bs ls.

Definition all_set (bs : BitSet.t) (ls : list Z) : bool :=
  forallb (BitSet.Test bs) ls.

(** The number of cells that are set. *)
Definition count_set (bs : BitSet.t) : Z :=
  Z.of_nat (length (List.filter (fun c : bool => c) bs)).

(** The representation invariant of a filter. *)
Definition wf (f : BloomFilter) : Prop :=
  1 <= m f < uint_modulus /\ 1 <= k f < uint_modulus /\
  BitSet.Len (b f) = m f.

(** A small hash used to evaluate the statements on concrete inputs:
    a multiply-and-add over the bytes, in 64 bits. *)
Definition sample_hash (bs : list byte) : Z :=
  fold_left (fun h c => (h * 1099511628211 + byte_val c) mod 2 ^ 64)
            bs 14695981039346656037.

Definition sample_filter : BloomFilter :=
  mkBloomFilter 100 4 (BitSet.New 100).

Definition alpha : list byte := bytes_of_string "alpha".

(** [sample_filter] after [Add alpha]. *)
Definition alpha_filter : BloomFilter :=
  with_bits sample_filter
    (set_all (b sample_filter) (positions sample_hash sample_filter alpha)).

Definition sample_calls : list op :=
  [ OpAddString "beta"; OpTest alpha; OpTestAndAdd alpha;
    OpTestLocations [7; 2 ^ 64 - 1]; OpCap; OpHashFunctionNum;
    OpTestString "gamma"; OpTestAndAddString "delta" ].

(** A filter whose round count exceeds [2^32]. *)
Definition many_rounds_filter : BloomFilter :=
  mkBloomFilter 100 (2 ^ 32 + 5) (BitSet.New 100).

(** A filter of a single cell. *)
Definition one_cell_filter : BloomFilter :=
  mkBloomFilter 1 3 (BitSet.New 1).

(** Go's zero value of the struct, with no bit array. *)
Definition zero_value : BloomFilter := mkBloomFilter 0 0 [].

(** A filter without cells but with rounds; [New] never builds one. *)
Definition no_cells_filter : BloomFilter := mkBloomFilter 0 3 [].

Definition beta : list byte := bytes_of_string "beta".

Ltac evaluate :=
  vm_compute; repeat split; first [reflexivity | discriminate].

(** * Properties *)

(** ** Integers and bytes *)

Lemma to_uint_small z : is_uint z -> to_uint z = z.
Proof. unfold is_uint, to_uint. intros H. apply Z.mod_small. exact H. Qed.

Lemma to_uint_is_uint z : is_uint (to_uint z).
Proof.
  unfold is_uint, to_uint, uint_modulus, uint_bits.
  apply Z.mod_pos_bound. reflexivity.
Qed.

Lemma byte_val_to_byte z : byte_val (to_byte z) = z mod 256.
Proof.
  unfold byte_val, to_byte.
  assert (Hr : (Z.to_N (z mod 256) < 256)%N).
  { pose proof (Z.mod_pos_bound z 256 eq_refl). lia. }
  destruct (Byte.of_N (Z.to_N (z mod 256))) as [c|] eqn:E.
  - apply Byte.to_of_N in E. rewrite E.
    pose proof (Z.mod_pos_bound z 256 eq_refl). lia.
  - apply Byte.of_N_None_iff in E. lia.
Qed.

Lemma uintToBytes_length value : length (uintToBytes value) = 4%nat.
Proof. reflexivity. Qed.

(** The four bytes are the little-endian digits of the low 32 bits. *)
Lemma uintToBytes_value value :
  le_value (uintToBytes value) = value mod 2 ^ 32.
Proof.
  unfold uintToBytes, le_value.
  rewrite !byte_val_to_byte, !Z.shiftr_div_pow2 by lia.
  change (2 ^ 8) with 256. change (2 ^ 16) with (256 * 256).
  change (2 ^ 24) with (256 * 256 * 256).
  change (2 ^ 32) with (256 * (256 * (256 * 256))).
  rewrite <- !Z.div_div by lia.
  set (q1 := value / 256). set (q2 := q1 / 256). set (q3 := q2 / 256).
  rewrite (Z.rem_mul_r value 256 (256 * (256 * 256))) by lia.
  fold q1.
  rewrite (Z.rem_mul_r q1 256 (256 * 256)) by lia. fold q2.
  rewrite (Z.rem_mul_r q2 256 256) by lia. fold q3.
  lia.
Qed.

(** ** The bit array *)

Module BitSetFacts.
Import BitSet.

Lemma Len_New len : 0 <= len -> Len (New len) = len.
Proof. intros H. unfold Len, New. rewrite length_replicate. lia. Qed.

Lemma Test_New len i : Test (New len) i = false.
Proof.
  unfold Test, New.
  destruct (replicate (Z.to_nat len) false !! Z.to_nat i) as [c|] eqn:E;
    [|reflexivity].
  apply lookup_replicate in E. tauto.
Qed.

Lemma Len_ClearAll bs : Len (ClearAll bs) = Len bs.
Proof. unfold Len, ClearAll. rewrite length_replicate. reflexivity. Qed.

Lemma Test_ClearAll bs i : Test (ClearAll bs) i = false.
Proof.
  unfold Test, ClearAll.
  destruct (replicate (length bs) false !! Z.to_nat i) as [c|] eqn:E;
    [|reflexivity].
  apply lookup_replicate in E. tauto.
Qed.

Lemma ClearAll_New bs : ClearAll bs = New (Len bs).
Proof. unfold ClearAll, New, Len. rewrite Nat2Z.id. reflexivity. Qed.

Lemma Test_true_lookup bs i :
  Test bs i = true <-> bs !! Z.to_nat i = Some true.
Proof.
  unfold Test. destruct (bs !! Z.to_nat i) as [c|].
  - split; [intros ->; reflexivity | intros [= ->]; reflexivity].
  - split; discriminate.
Qed.

Lemma extendSetMaybe_in_range bs i : i < Len bs -> extendSetMaybe bs i = bs.
Proof.
  intros H. unfold extendSetMaybe.
  destruct (Z.leb_spec (Len bs) i); [lia | reflexivity].
Qed.

Lemma extendSetMaybe_length bs i :
  0 <= i -> (Z.to_nat i < length (extendSetMaybe bs i))%nat.
Proof.
  intros H. unfold extendSetMaybe, Len.
  destruct (Z.leb_spec (Z.of_nat (length bs)) i).
  - rewrite length_app, length_replicate. lia.
  - lia.
Qed.

Lemma extendSetMaybe_lookup bs i j c :
  bs !! j = Some c -> extendSetMaybe bs i !! j = Some c.
Proof.
  intros H. unfold extendSetMaybe.
  destruct (Len bs <=? i); [|exact H].
  rewrite lookup_app_l; [exact H|]. eapply lookup_lt_Some; exact H.
Qed.

(** A cell that was just set reads as set. *)
Lemma Test_SetBit_same bs i : 0 <= i -> Test (SetBit bs i) i = true.
Proof.
  intros H. apply Test_true_lookup. unfold SetBit.
  apply list_lookup_insert_eq, extendSetMaybe_length, H.
Qed.

(** Setting a cell clears no cell. *)
Lemma Test_SetBit_mono bs i j :
  Test bs j = true -> Test (SetBit bs i) j = true.
Proof.
  rewrite !Test_true_lookup. intros H. unfold SetBit.
  apply (extendSetMaybe_lookup bs i) in H.
  destruct (decide (Z.to_nat i = Z.to_nat j)) as [E|E].
  - rewrite E. apply list_lookup_insert_eq. eapply lookup_lt_Some; exact H.
  - rewrite list_lookup_insert_ne by exact E. exact H.
Qed.

(** Setting a cell leaves the other cells as they were. *)
Lemma Test_SetBit_other bs i j :
  0 <= i -> 0 <= j -> i <> j -> Test (SetBit bs i) j = Test bs j.
Proof.
  intros Hi Hj Hne. unfold Test, SetBit.
  rewrite list_lookup_insert_ne by lia.
  unfold extendSetMaybe, Len.
  destruct (Z.leb_spec (Z.of_nat (length bs)) i) as [Hle|Hlt];
    [|reflexivity].
  destruct (decide (Z.to_nat j < length bs)%nat) as [Hin|Hout].
  - rewrite lookup_app_l by exact Hin. reflexivity.
  - rewrite lookup_app_r by lia.
    rewrite (lookup_ge_None_2 bs) by lia.
    destruct (replicate _ false !! _) as [c|] eqn:E; [|reflexivity].
    apply lookup_replicate in E. tauto.
Qed.

(** Setting a cell that is set changes nothing. *)
Lemma SetBit_id bs i : Test bs i = true -> SetBit bs i = bs.
Proof.
  rewrite Test_true_lookup. intros H. unfold SetBit.
  assert (Hlt : (Z.to_nat i < length bs)%nat)
    by (eapply lookup_lt_Some; exact H).
  rewrite extendSetMaybe_in_range.
  - apply list_insert_id, H.
  - unfold Len. lia.
Qed.

Lemma Len_SetBit bs i : 0 <= i < Len bs -> Len (SetBit bs i) = Len bs.
Proof.
  intros H. unfold SetBit. rewrite extendSetMaybe_in_range by lia.
  unfold Len. rewrite length_insert. reflexivity.
Qed.

End BitSetFacts.

(** ** Sets of cells *)

Lemma with_bits_self f : with_bits f (b f) = f.
Proof. destruct f; reflexivity. Qed.

Lemma Test_set_all_mono bs ls j :
  BitSet.Test bs j = true -> BitSet.Test (set_all bs ls) j = true.
Proof.
  revert bs. induction ls as [|l ls IH]; intros bs H; simpl.
  - exact H.
  - apply IH, BitSetFacts.Test_SetBit_mono, H.
Qed.

Lemma Test_set_all_in bs ls l :
  In l ls -> 0 <= l -> BitSet.Test (set_all bs ls) l = true.
Proof.
  revert bs. induction ls as [|l' ls IH]; intros bs Hin Hl; simpl.
  - destruct Hin.
  - destruct Hin as [->|Hin].
    + apply Test_set_all_mono, BitSetFacts.Test_SetBit_same, Hl.
    + apply IH; assumption.
Qed.

Lemma Test_set_all_out bs ls j :
  0 <= j -> Forall (fun l => 0 <= l) ls -> ~ In j ls ->
  BitSet.Test (set_all bs ls) j = BitSet.Test bs j.
Proof.
  intros Hj. revert bs.
  induction ls as [|l ls IH]; intros bs Hpos Hout; simpl.
  - reflexivity.
  - inversion Hpos as [|? ? Hl Hls]; subst.
    rewrite IH.
    + apply BitSetFacts.Test_SetBit_other; [assumption..|].
      intros ->. apply Hout. left. reflexivity.
    + exact Hls.
    + intros Hin. apply Hout. right. exact Hin.
Qed.

Lemma all_set_true bs ls :
  all_set bs ls = true <-> forall l, In l ls -> BitSet.Test bs l = true.
Proof. unfold all_set. apply forallb_forall. Qed.

Lemma all_set_set_all bs ls :
  Forall (fun l => 0 <= l) ls -> all_set (set_all bs ls) ls = true.
Proof.
  intros Hpos. apply all_set_true. intros l Hin.
  apply Test_set_all_in; [exact Hin|].
  rewrite List.Forall_forall in Hpos. apply Hpos, Hin.
Qed.

Lemma set_all_id bs ls : all_set bs ls = true -> set_all bs ls = bs.
Proof.
  induction ls as [|l ls IH]; simpl; intros H.
  - reflexivity.
  - apply andb_true_iff in H as [Hl Hls].
    rewrite BitSetFacts.SetBit_id by exact Hl. apply IH, Hls.
Qed.

Lemma set_all_app bs ls1 ls2 :
  set_all bs (ls1 ++ ls2) = set_all (set_all bs ls1) ls2.
Proof. unfold set_all. apply foldl_app. Qed.

Lemma Len_set_all bs ls :
  Forall (fun l => 0 <= l < BitSet.Len bs) ls ->
  BitSet.Len (set_all bs ls) = BitSet.Len bs.
Proof.
  revert bs. induction ls as [|l ls IH]; intros bs H; simpl.
  - reflexivity.
  - inversion H as [|? ? Hl Hls]; subst.
    rewrite IH.
    + apply BitSetFacts.Len_SetBit, Hl.
    + rewrite BitSetFacts.Len_SetBit by exact Hl. exact Hls.
Qed.

(** ** Running the methods *)

Section BloomFacts.

Variable Sum64 : list byte -> Z.

Lemma position_range fm data i :
  0 < fm -> 0 <= position Sum64 fm data i < fm.
Proof. intros H. unfold position. apply Z.mod_pos_bound, H. Qed.

Lemma positions_range f data :
  0 < m f ->
  Forall (fun l => 0 <= l < m f) (positions Sum64 f data).
Proof.
  intros H. unfold positions. apply List.Forall_forall. intros l Hin.
  apply in_map_iff in Hin as (i & <- & _).
  apply position_range, H.
Qed.

Lemma positions_nonneg f data :
  0 < m f -> Forall (fun l => 0 <= l) (positions Sum64 f data).
Proof.
  intros H. pose proof (positions_range f data H) as Hr.
  rewrite List.Forall_forall in Hr. apply List.Forall_forall.
  intros l Hin. apply Hr in Hin. lia.
Qed.

Lemma positions_with_bits f bs data :
  positions Sum64 (with_bits f bs) data = positions Sum64 f data.
Proof. reflexivity. Qed.

Lemma location_run data i f :
  m f <> 0 ->
  location Sum64 data i f = Some (position Sum64 (m f) data i, f).
Proof.
  intros H. unfold location, bind, get_m, umod.
  destruct (Z.eqb_spec (m f) 0) as [E|_]; [contradiction|reflexivity].
Qed.

Lemma location_panics data i f :
  m f = 0 -> location Sum64 data i f = None.
Proof.
  intros H. unfold location, bind, get_m, umod. rewrite H. reflexivity.
Qed.

Lemma Add_loop_run data idx f :
  m f <> 0 ->
  Add_loop Sum64 data idx f =
  Some (tt, with_bits f (set_all (b f) (map (position Sum64 (m f) data) idx))).
Proof.
  revert f. induction idx as [|i idx IH]; intros f H; simpl.
  - rewrite with_bits_self. reflexivity.
  - unfold bind at 1. rewrite location_run by exact H.
    unfold bind at 1, b_Set. rewrite IH by exact H. reflexivity.
Qed.

Lemma Test_loop_run data idx f :
  m f <> 0 ->
  Test_loop Sum64 data idx f =
  Some (all_set (b f) (map (position Sum64 (m f) data) idx), f).
Proof.
  intros H. induction idx as [|i idx IH]; simpl.
  - reflexivity.
  - unfold bind at 1. rewrite location_run by exact H.
    unfold bind at 1, b_Test.
    destruct (BitSet.Test (b f) (position Sum64 (m f) data i)); simpl.
    + exact IH.
    + reflexivity.
Qed.

Lemma TestAndAdd_loop_run data present idx f :
  m f <> 0 ->
  TestAndAdd_loop Sum64 data present idx f =
  Some (present && all_set (b f) (map (position Sum64 (m f) data) idx),
        with_bits f (set_all (b f) (map (position Sum64 (m f) data) idx))).
Proof.
  revert present f.
  induction idx as [|i idx IH]; intros present f H; simpl.
  - rewrite with_bits_self, andb_true_r. reflexivity.
  - unfold bind at 1. rewrite location_run by exact H.
    unfold bind at 1, b_Test. unfold bind at 1, b_Set.
    rewrite IH by exact H. simpl.
    destruct (BitSet.Test (b f) (position Sum64 (m f) data i)) eqn:E; simpl.
    + rewrite BitSetFacts.SetBit_id by exact E. reflexivity.
    + rewrite andb_false_r. reflexivity.
Qed.

Lemma Add_run data f :
  m f <> 0 ->
  Add Sum64 data f =
  Some (with_bits f (set_all (b f) (positions Sum64 f data)),
        with_bits f (set_all (b f) (positions Sum64 f data))).
Proof.
  intros H. unfold Add, rounds, bind, get_k, ret.
  rewrite Add_loop_run by exact H. reflexivity.
Qed.

Lemma Test_run data f :
  m f <> 0 ->
  Test Sum64 data f = Some (all_set (b f) (positions Sum64 f data), f).
Proof.
  intros H. unfold Test, rounds, bind, get_k, ret.
  apply Test_loop_run, H.
Qed.

Lemma TestAndAdd_run data f :
  m f <> 0 ->
  TestAndAdd Sum64 data f =
  Some (all_set (b f) (positions Sum64 f data),
        with_bits f (set_all (b f) (positions Sum64 f data))).
Proof.
  intros H. unfold TestAndAdd, rounds, bind, get_k, ret.
  rewrite TestAndAdd_loop_run by exact H. reflexivity.
Qed.

End BloomFacts.

Lemma TestLocations_run locs f :
  1 <= m f < uint_modulus ->
  TestLocations locs f =
  Some (all_set (b f) (map (fun p => p mod m f) locs), f).
Proof.
  intros H. unfold TestLocations.
  assert (Hm : to_uint64 (m f) = m f).
  { unfold to_uint64. apply Z.mod_small. unfold uint_modulus, uint_bits in H.
    lia. }
  induction locs as [|p locs IH]; simpl.
  - reflexivity.
  - unfold bind at 1, get_m. unfold bind at 1, umod. rewrite Hm.
    destruct (Z.eqb_spec (m f) 0) as [E|_]; [lia|].
    unfold ret. unfold bind at 1, b_Test.
    rewrite to_uint_small.
    + destruct (BitSet.Test (b f) (p mod m f)); simpl.
      * exact IH.
      * reflexivity.
    + pose proof (Z.mod_pos_bound p (m f)). unfold is_uint. lia.
Qed.

Lemma ClearAll_run f :
  ClearAll f =
  Some (with_bits f (BitSet.ClearAll (b f)),
        with_bits f (BitSet.ClearAll (b f))).
Proof. reflexivity. Qed.

(** ** The representation invariant *)

Lemma wf_m_nonzero f : wf f -> m f <> 0.
Proof. unfold wf. lia. Qed.

Lemma wf_sample_filter : wf sample_filter.
Proof.
  unfold wf, uint_modulus, uint_bits. simpl.
  repeat split; (lia || reflexivity).
Qed.

Lemma sample_hash_is_uint bs : is_uint (sample_hash bs).
Proof.
  unfold sample_hash.
  assert (H : forall acc, is_uint acc ->
    is_uint (fold_left
      (fun h c => (h * 1099511628211 + byte_val c) mod 2 ^ 64) bs acc)).
  { induction bs as [|c bs IH]; intros acc Hacc; simpl.
    - exact Hacc.
    - apply IH. unfold is_uint, uint_modulus, uint_bits.
      apply Z.mod_pos_bound. reflexivity. }
  apply H. unfold is_uint, uint_modulus, uint_bits. lia.
Qed.

Section Invariant.

Variable Sum64 : list byte -> Z.

Lemma positions_eq f f' data :
  m f' = m f -> k f' = k f ->
  positions Sum64 f' data = positions Sum64 f data.
Proof. unfold positions. intros -> ->. reflexivity. Qed.

Lemma wf_Add f data :
  wf f -> wf (with_bits f (set_all (b f) (positions Sum64 f data))).
Proof.
  intros (Hm & Hk & Hlen). unfold wf. simpl.
  repeat split; try lia.
  rewrite Len_set_all; [exact Hlen|].
  rewrite Hlen. apply positions_range. lia.
Qed.

Lemma wf_ClearAll f : wf f -> wf (with_bits f (BitSet.ClearAll (b f))).
Proof.
  intros (Hm & Hk & Hlen). unfold wf. simpl.
  rewrite BitSetFacts.Len_ClearAll. repeat split; lia.
Qed.

Lemma wf_New fm fk f :
  is_uint fm -> is_uint fk -> New fm fk = (Some f, None) -> wf f.
Proof.
  unfold New, is_uint. intros Hm Hk H.
  destruct (Z.ltb_spec fm 1); [discriminate|].
  destruct (Z.ltb_spec fk 1); [discriminate|].
  injection H as <-. unfold wf. simpl.
  rewrite BitSetFacts.Len_New by lia. lia.
Qed.

(** Every call on a well-formed filter returns; it keeps the filter
    well-formed and its parameters fixed; unless it is [ClearAll] it
    clears no cell; and a query leaves the filter as it was. *)
Lemma call_run o f :
  wf f ->
  exists v f',
    call Sum64 o f = Some (v, f') /\ wf f' /\ m f' = m f /\ k f' = k f /\
    (o <> OpClearAll ->
     forall j, BitSet.Test (b f) j = true -> BitSet.Test (b f') j = true) /\
    (is_query o = true -> f' = f).
Proof.
  intros Hwf. pose proof (wf_m_nonzero f Hwf) as Hm.
  assert (Hr : 1 <= m f < uint_modulus) by apply Hwf.
  destruct o as [data|s|data|s|data|s|locs| | |]; simpl;
    unfold AddString, TestString, TestAndAddString, Cap, HashFunctionNum,
      bind at 1;
    rewrite ?Add_run, ?Test_run, ?TestAndAdd_run, ?ClearAll_run by exact Hm;
    rewrite ?TestLocations_run by exact Hr;
    (eexists; eexists; split; [reflexivity|]);
    (split; [first [exact Hwf | apply wf_Add, Hwf | apply wf_ClearAll, Hwf]|]);
    (split; [reflexivity|]); (split; [reflexivity|]);
    (split;
      [ intros Hne j Hj;
        first [exact Hj | contradiction
              | simpl; apply Test_set_all_mono, Hj]
      | intros Hq; first [discriminate | reflexivity] ]).
Qed.

Lemma calls_run os f :
  wf f -> ~ In OpClearAll os ->
  exists vs f',
    calls Sum64 os f = Some (vs, f') /\ wf f' /\ m f' = m f /\ k f' = k f /\
    (forall j, BitSet.Test (b f) j = true -> BitSet.Test (b f') j = true).
Proof.
  revert f. induction os as [|o os IH]; intros f Hwf Hno; simpl.
  - exists [], f. split; [reflexivity|]. split; [exact Hwf|].
    split; [reflexivity|]. split; [reflexivity|]. intros j Hj; exact Hj.
  - destruct (call_run o f Hwf) as (v & f1 & Hc & Hwf1 & Hm1 & Hk1 & Hmono & _).
    destruct (IH f1 Hwf1) as (vs & f2 & Hcs & Hwf2 & Hm2 & Hk2 & Hmono2).
    { intros Hin. apply Hno. right. exact Hin. }
    exists (v :: vs), f2. unfold bind at 1. rewrite Hc.
    unfold bind at 1. rewrite Hcs. split; [reflexivity|].
    split; [exact Hwf2|]. split; [congruence|]. split; [congruence|].
    intros j Hj. apply Hmono2, Hmono; [|exact Hj].
    intros ->. apply Hno. left. reflexivity.
Qed.

Lemma reachable_wf f : reachable Sum64 f -> wf f.
Proof.
  induction 1 as [fm fk f Hm Hk HN | f o v f' _ IH Hc].
  - exact (wf_New fm fk f Hm Hk HN).
  - destruct (call_run o f IH) as (v' & f'' & Hc' & Hwf & _).
    rewrite Hc in Hc'. injection Hc' as <- <-. exact Hwf.
Qed.

End Invariant.

(** ** Facts shared by the main statements *)

Lemma all_set_mono bs bs' ls :
  (forall j, BitSet.Test bs j = true -> BitSet.Test bs' j = true) ->
  all_set bs ls = true -> all_set bs' ls = true.
Proof.
  intros Hmono. rewrite !all_set_true. intros H l Hin.
  apply Hmono, H, Hin.
Qed.

Lemma all_set_cleared bs l ls : all_set (BitSet.ClearAll bs) (l :: ls) = false.
Proof. simpl. rewrite BitSetFacts.Test_ClearAll. reflexivity. Qed.

Lemma le_encode_length n z : length (le_encode n z) = n.
Proof.
  revert z. induction n as [|n IH]; intros z; simpl.
  - reflexivity.
  - rewrite IH. reflexivity.
Qed.

Lemma to_byte_mod z : to_byte (z mod 256) = to_byte z.
Proof. unfold to_byte. rewrite Z.mod_mod by lia. reflexivity. Qed.

(** [uintToBytes] is the four-byte little-endian encoding. *)
Lemma uintToBytes_le_encode value : uintToBytes value = le_encode 4 value.
Proof.
  unfold uintToBytes. simpl.
  rewrite !to_byte_mod, !Z.shiftr_div_pow2 by lia.
  change (2 ^ 8) with 256. change (2 ^ 16) with (256 * 256).
  change (2 ^ 24) with (256 * 256 * 256).
  rewrite <- !Z.div_div by lia. reflexivity.
Qed.

Section Shared.

Variable Sum64 : list byte -> Z.

Lemma in_positions f data l :
  In l (positions Sum64 f data) <->
  exists i, 0 <= i < k f /\ l = position Sum64 (m f) data i.
Proof.
  unfold positions. rewrite in_map_iff. split.
  - intros (i & <- & Hin). exists i. split; [|reflexivity].
    apply list_elem_of_In, elem_of_seqZ in Hin. lia.
  - intros (i & Hi & ->). exists i. split; [reflexivity|].
    apply list_elem_of_In, elem_of_seqZ. lia.
Qed.

Lemma positions_cons f data :
  1 <= k f ->
  exists ls, positions Sum64 f data = position Sum64 (m f) data 0 :: ls.
Proof.
  intros Hk. unfold positions. rewrite seqZ_cons by lia. simpl.
  eexists. reflexivity.
Qed.

(** Once [data] is added, each of its cells is set. *)
Lemma all_set_after_Add f data :
  wf f ->
  all_set (set_all (b f) (positions Sum64 f data)) (positions Sum64 f data)
  = true.
Proof.
  intros Hwf. apply all_set_set_all, positions_nonneg.
  destruct Hwf as (Hm & _). lia.
Qed.

(** On a cleared filter no item tests positive. *)
Lemma Test_after_ClearAll f data :
  wf f ->
  Test Sum64 data (with_bits f (BitSet.ClearAll (b f))) =
  Some (false, with_bits f (BitSet.ClearAll (b f))).
Proof.
  intros Hwf. rewrite Test_run by (simpl; apply wf_m_nonzero, Hwf).
  destruct (positions_cons (with_bits f (BitSet.ClearAll (b f))) data)
    as (ls & ->).
  - simpl. apply Hwf.
  - simpl b. rewrite all_set_cleared. reflexivity.
Qed.

End Shared.

(** * The statements of the specification *)

Section Claims.

Variable Sum64 : list byte -> Z.

(** C1. No false negatives.  For every byte sequence [x] and every filter
    reachable from construction, [Add x] returns, and right after it
    [Test x] returns [true]; [Test x] still returns [true] after any
    further sequence of calls that contains no [ClearAll], whatever
    their arguments; and [ClearAll] does make it [false] again. *)
Theorem no_false_negatives (x : list byte) (f : BloomFilter) :
  reachable Sum64 f ->
  exists f1,
    Add Sum64 x f = Some (f1, f1) /\
    Test Sum64 x f1 = Some (true, f1) /\
    (forall os, ~ In OpClearAll os ->
       exists vs f2,
         calls Sum64 os f1 = Some (vs, f2) /\
         Test Sum64 x f2 = Some (true, f2)) /\
    (exists f3,
       ClearAll f1 = Some (f3, f3) /\ Test Sum64 x f3 = Some (false, f3)).
Proof.
  intros Hreach. pose proof (reachable_wf Sum64 f Hreach) as Hwf.
  pose proof (wf_Add Sum64 f x Hwf) as Hwf1.
  set (f1 := with_bits f (set_all (b f) (positions Sum64 f x))) in *.
  assert (Hset : all_set (b f1) (positions Sum64 f1 x) = true)
    by exact (all_set_after_Add Sum64 f x Hwf).
  exists f1. split; [apply Add_run, wf_m_nonzero, Hwf|].
  split.
  { rewrite Test_run by apply wf_m_nonzero, Hwf1. rewrite Hset. reflexivity. }
  split.
  - intros os Hno.
    destruct (calls_run Sum64 os f1 Hwf1 Hno)
      as (vs & f2 & Hcs & Hwf2 & Hm2 & Hk2 & Hmono).
    exists vs, f2. split; [exact Hcs|].
    rewrite Test_run by apply wf_m_nonzero, Hwf2.
    rewrite (positions_eq Sum64 f1 f2 x Hm2 Hk2).
    rewrite (all_set_mono (b f1) (b f2) _ Hmono Hset). reflexivity.
  - exists (with_bits f1 (BitSet.ClearAll (b f1))).
    split; [apply ClearAll_run|]. apply Test_after_ClearAll, Hwf1.
Qed.

(** C2. Construction.  [New m k] returns an error of the kind
    InvalidParameter and no filter exactly when [m < 1] or [k < 1]; it
    returns a filter and no error exactly when [1 <= m] and [1 <= k], and
    that filter has the parameters [m] and [k] and [m] cells, all
    cleared.  No call on a filter reachable from construction fails. *)
Theorem New_validates (fm fk : Z) :
  (fm < 1 \/ fk < 1 <->
   exists e, New fm fk = (None, Some e) /\ InvalidParameter e) /\
  (1 <= fm /\ 1 <= fk <-> exists f, New fm fk = (Some f, None)) /\
  (forall f, New fm fk = (Some f, None) ->
     m f = fm /\ k f = fk /\ BitSet.Len (b f) = fm /\
     forall i, BitSet.Test (b f) i = false) /\
  (forall f o, reachable Sum64 f ->
     exists v f', call Sum64 o f = Some (v, f')).
Proof.
  unfold New, InvalidParameter.
  destruct (Z.ltb_spec fm 1) as [Hm|Hm];
    [|destruct (Z.ltb_spec fk 1) as [Hk|Hk]].
  - split; [|split; [|split]].
    + split; [intros _; eexists; split; [reflexivity|left; reflexivity]|].
      intros _. left. exact Hm.
    + split; [lia|]. intros (f & H). discriminate.
    + intros f H. discriminate.
    + intros f o Hr. apply reachable_wf in Hr.
      destruct (call_run Sum64 o f Hr) as (v & f' & Hc & _). eauto.
  - split; [|split; [|split]].
    + split; [intros _; eexists; split; [reflexivity|right; reflexivity]|].
      intros _. right. exact Hk.
    + split; [lia|]. intros (f & H). discriminate.
    + intros f H. discriminate.
    + intros f o Hr. apply reachable_wf in Hr.
      destruct (call_run Sum64 o f Hr) as (v & f' & Hc & _). eauto.
  - split; [|split; [|split]].
    + split; [lia|]. intros (e & H & _). discriminate.
    + split; [intros _; eexists; reflexivity|]. intros _. lia.
    + intros f [= <-]. simpl.
      rewrite BitSetFacts.Len_New by lia.
      repeat split. intros i. apply BitSetFacts.Test_New.
    + intros f o Hr. apply reachable_wf in Hr.
      destruct (call_run Sum64 o f Hr) as (v & f' & Hc & _). eauto.
Qed.

(** C3. Position derivation.  In a filter with [m >= 1], for every byte
    sequence [data] and round index [i], and a hash with 64-bit values,
    [location data i] returns the hash of [data] followed by the four-byte
    little-endian encoding of [i] (the four bytes denote [i mod 2^32],
    which is [i] for [i < 2^32]), reduced modulo [m]; the result lies in
    [[0, m)]; the filter is left as it was; and the result is the same in
    any filter state with the same [m]. *)
Theorem location_spec (data : list byte) (i : Z) (f : BloomFilter) :
  (forall bs, is_uint (Sum64 bs)) ->
  1 <= m f ->
  exists p,
    location Sum64 data i f = Some (p, f) /\
    p = Sum64 (data ++ le_encode 4 i) mod m f /\
    uintToBytes i = le_encode 4 i /\
    le_value (le_encode 4 i) = i mod 2 ^ 32 /\
    0 <= p < m f /\
    (forall f', m f' = m f -> location Sum64 data i f' = Some (p, f')).
Proof.
  intros Hhash Hm. exists (position Sum64 (m f) data i).
  split; [apply location_run; lia|].
  split.
  { unfold position. rewrite to_uint_small by apply Hhash.
    rewrite uintToBytes_le_encode. reflexivity. }
  split; [apply uintToBytes_le_encode|].
  split; [rewrite <- uintToBytes_le_encode; apply uintToBytes_value|].
  split; [apply position_range; lia|].
  intros f' E. rewrite <- E. apply location_run. lia.
Qed.

(** C4. [TestAndAdd].  For every byte sequence [x] and every well-formed
    filter, [TestAndAdd x] returns the boolean [Test x] returns on the
    state before the call, it leaves the state [Add x] leaves from that
    same state, and [Test x] returns [true] afterwards. *)
Theorem TestAndAdd_is_Test_then_Add (x : list byte) (f : BloomFilter) :
  wf f ->
  exists r f',
    TestAndAdd Sum64 x f = Some (r, f') /\
    Test Sum64 x f = Some (r, f) /\
    Add Sum64 x f = Some (f', f') /\
    Test Sum64 x f' = Some (true, f').
Proof.
  intros Hwf. pose proof (wf_m_nonzero f Hwf) as Hm.
  exists (all_set (b f) (positions Sum64 f x)).
  exists (with_bits f (set_all (b f) (positions Sum64 f x))).
  split; [apply TestAndAdd_run, Hm|].
  split; [apply Test_run, Hm|].
  split; [apply Add_run, Hm|].
  rewrite Test_run by exact Hm. simpl b.
  rewrite positions_with_bits, all_set_after_Add by exact Hwf. reflexivity.
Qed.

(** C5. [Add] is idempotent.  For every byte sequence [x] and every
    well-formed filter, a second [Add x] right after the first leaves
    the filter, and so its bit array, exactly as the first left it. *)
Theorem Add_idempotent (x : list byte) (f : BloomFilter) :
  wf f ->
  exists f1 f2,
    Add Sum64 x f = Some (f1, f1) /\
    Add Sum64 x f1 = Some (f2, f2) /\
    b f2 = b f1 /\ f2 = f1.
Proof.
  intros Hwf. pose proof (wf_m_nonzero f Hwf) as Hm.
  set (f1 := with_bits f (set_all (b f) (positions Sum64 f x))).
  assert (E : with_bits f1 (set_all (b f1) (positions Sum64 f1 x)) = f1).
  { unfold f1 at 2 3. simpl b. rewrite positions_with_bits.
    rewrite set_all_id by (apply all_set_after_Add, Hwf). reflexivity. }
  exists f1, f1. split; [apply Add_run, Hm|].
  split; [|split; reflexivity].
  rewrite Add_run by exact Hm. rewrite E. reflexivity.
Qed.

(** C6. [ClearAll].  On every well-formed filter [ClearAll] returns the
    filter itself, with [m] and [k] unchanged, the same number of cells,
    and every cell cleared; the result is the filter [New] builds from
    the same parameters; and on it [Test x] returns [false] for every
    [x], until [x] is added again. *)
Theorem ClearAll_resets (f : BloomFilter) :
  wf f ->
  exists f',
    ClearAll f = Some (f', f') /\
    m f' = m f /\ k f' = k f /\
    BitSet.Len (b f') = BitSet.Len (b f) /\
    (forall i, BitSet.Test (b f') i = false) /\
    New (m f) (k f) = (Some f', None) /\
    (forall x, Test Sum64 x f' = Some (false, f')) /\
    (forall x, exists f'',
       Add Sum64 x f' = Some (f'', f'') /\
       Test Sum64 x f'' = Some (true, f'')).
Proof.
  intros Hwf. exists (with_bits f (BitSet.ClearAll (b f))).
  split; [apply ClearAll_run|]. split; [reflexivity|]. split; [reflexivity|].
  split; [apply BitSetFacts.Len_ClearAll|].
  split; [intros i; apply BitSetFacts.Test_ClearAll|].
  split.
  { destruct Hwf as (Hm & Hk & Hlen). unfold New.
    destruct (Z.ltb_spec (m f) 1); [lia|].
    destruct (Z.ltb_spec (k f) 1); [lia|].
    unfold with_bits. rewrite BitSetFacts.ClearAll_New, Hlen. reflexivity. }
  split; [intros x; apply Test_after_ClearAll, Hwf|].
  intros x. pose proof (wf_ClearAll f Hwf) as Hwf'.
  remember (with_bits f (BitSet.ClearAll (b f))) as f' eqn:Ef'.
  pose proof (wf_m_nonzero f' Hwf') as Hm'.
  exists (with_bits f' (set_all (b f') (positions Sum64 f' x))).
  split; [apply Add_run, Hm'|].
  rewrite Test_run by exact Hm'. simpl b.
  rewrite positions_with_bits.
  rewrite (all_set_after_Add Sum64 f' x Hwf'). reflexivity.
Qed.

(** C7. Monotonicity.  Along every sequence of calls that contains no
    [ClearAll] (so of [Add], [AddString], [Test], [TestString],
    [TestAndAdd], [TestAndAddString], [TestLocations], [Cap] and
    [HashFunctionNum]), started in a well-formed filter, every call
    returns and every cell that was set is still set at the end. *)
Theorem bits_monotone (os : list op) (f : BloomFilter) :
  wf f ->
  ~ In OpClearAll os ->
  exists vs f',
    calls Sum64 os f = Some (vs, f') /\
    (forall j, BitSet.Test (b f) j = true -> BitSet.Test (b f') j = true).
Proof.
  intros Hwf Hno.
  destruct (calls_run Sum64 os f Hwf Hno) as (vs & f' & Hcs & _ & _ & _ & H).
  exists vs, f'. split; assumption.
Qed.

(** C9. [Test].  On every well-formed filter and for every byte sequence
    [x], [Test x] returns; it returns [true] exactly when, for every round
    [i] in [[0, k)], the cell at [location x i] is set; and it returns
    [false] as soon as one of those cells is cleared. *)
Theorem Test_spec (x : list byte) (f : BloomFilter) :
  wf f ->
  exists r,
    Test Sum64 x f = Some (r, f) /\
    (r = true <->
     forall i, 0 <= i < k f ->
       exists l, location Sum64 x i f = Some (l, f) /\
                 BitSet.Test (b f) l = true) /\
    ((exists i l, 0 <= i < k f /\ location Sum64 x i f = Some (l, f) /\
                  BitSet.Test (b f) l = false) -> r = false).
Proof.
  intros Hwf. pose proof (wf_m_nonzero f Hwf) as Hm.
  exists (all_set (b f) (positions Sum64 f x)).
  split; [apply Test_run, Hm|].
  assert (Hiff : all_set (b f) (positions Sum64 f x) = true <->
    forall i, 0 <= i < k f ->
      exists l, location Sum64 x i f = Some (l, f) /\
                BitSet.Test (b f) l = true).
  { rewrite all_set_true. split.
    - intros H i Hi. exists (position Sum64 (m f) x i).
      split; [apply location_run, Hm|].
      apply H, in_positions. exists i. split; [exact Hi|reflexivity].
    - intros H l Hin. apply in_positions in Hin as (i & Hi & ->).
      destruct (H i Hi) as (l & Hl & Ht).
      rewrite location_run in Hl by exact Hm. injection Hl as <-. exact Ht. }
  split; [exact Hiff|].
  intros (i & l & Hi & Hl & Ht).
  destruct (all_set (b f) (positions Sum64 f x)) eqn:E; [|reflexivity].
  destruct Hiff as [Hall _]. destruct (Hall eq_refl i Hi) as (l' & Hl' & Ht').
  rewrite Hl in Hl'. injection Hl' as <-. congruence.
Qed.

(** C10. Queries change nothing.  On every well-formed filter, each of
    [Test], [TestString], [TestLocations], [Cap] and [HashFunctionNum],
    with any argument, returns and leaves the whole filter (its bit array,
    [m] and [k]) exactly as it was. *)
Theorem queries_leave_state (o : op) (f : BloomFilter) :
  wf f ->
  is_query o = true ->
  exists v, call Sum64 o f = Some (v, f).
Proof.
  intros Hwf Hq.
  destruct (call_run Sum64 o f Hwf) as (v & f' & Hc & _ & _ & _ & _ & Hsame).
  exists v. rewrite <- (Hsame Hq) at 2. exact Hc.
Qed.

End Claims.

(** C8. [TestLocations].  On every well-formed filter and for every list
    [locs] of candidates, [TestLocations locs] returns (it cannot fail),
    leaves the filter as it was, and returns [true] exactly when, for
    every element [p] of [locs], the cell at index [p mod m] is set; that
    index lies in [[0, m)] whatever [p] is. *)
Theorem TestLocations_spec (locs : list Z) (f : BloomFilter) :
  wf f ->
  exists r,
    TestLocations locs f = Some (r, f) /\
    (r = true <->
     forall p, In p locs -> BitSet.Test (b f) (p mod m f) = true) /\
    (forall p, 0 <= p mod m f < m f).
Proof.
  intros Hwf. destruct Hwf as (Hm & _).
  exists (all_set (b f) (map (fun p => p mod m f) locs)).
  split; [apply TestLocations_run, Hm|].
  split.
  - rewrite all_set_true. split.
    + intros H p Hin. apply H, in_map_iff. exists p. split; [reflexivity|].
      exact Hin.
    + intros H l Hin. apply in_map_iff in Hin as (p & <- & Hin).
      apply H, Hin.
  - intros p. apply Z.mod_pos_bound. lia.
Qed.

(** * The statements on concrete inputs *)

Example sample_positions :
  positions sample_hash sample_filter alpha = [41; 16; 91; 66].
Proof. reflexivity. Qed.

Example sample_TestAndAdd_twice :
  (let! r1 := TestAndAdd sample_hash alpha in
   let! r2 := TestAndAdd sample_hash alpha in
   ret (r1, r2)) sample_filter
  = Some ((false, true), alpha_filter).
Proof. reflexivity. Qed.

Example sample_zero_value_panics :
  TestLocations [1] (mkBloomFilter 0 0 []) = None.
Proof. reflexivity. Qed.

Lemma no_false_negatives_witness :
  reachable sample_hash sample_filter /\
  exists f1,
    Add sample_hash alpha sample_filter = Some (f1, f1) /\
    Test sample_hash alpha f1 = Some (true, f1) /\
    (forall os, ~ In OpClearAll os ->
       exists vs f2,
         calls sample_hash os f1 = Some (vs, f2) /\
         Test sample_hash alpha f2 = Some (true, f2)) /\
    (exists f3,
       ClearAll f1 = Some (f3, f3) /\
       Test sample_hash alpha f3 = Some (false, f3)).
Proof.
  assert (H : reachable sample_hash sample_filter).
  { apply (reach_New sample_hash 100 4); evaluate. }
  split; [exact H|].
  apply (no_false_negatives sample_hash alpha sample_filter H).
Defined.

Lemma location_spec_witness :
  (forall bs, is_uint (sample_hash bs)) /\ 1 <= m sample_filter /\
  exists p,
    location sample_hash alpha 3 sample_filter = Some (p, sample_filter) /\
    p = sample_hash (alpha ++ le_encode 4 3) mod m sample_filter /\
    uintToBytes 3 = le_encode 4 3 /\
    le_value (le_encode 4 3) = 3 mod 2 ^ 32 /\
    0 <= p < m sample_filter /\
    (forall f', m f' = m sample_filter ->
       location sample_hash alpha 3 f' = Some (p, f')).
Proof.
  assert (H : 1 <= m sample_filter) by evaluate.
  split; [exact sample_hash_is_uint|]. split; [exact H|].
  apply (location_spec sample_hash alpha 3 sample_filter
           sample_hash_is_uint H).
Defined.

Lemma TestAndAdd_is_Test_then_Add_witness :
  wf sample_filter /\
  exists r f',
    TestAndAdd sample_hash alpha sample_filter = Some (r, f') /\
    Test sample_hash alpha sample_filter = Some (r, sample_filter) /\
    Add sample_hash alpha sample_filter = Some (f', f') /\
    Test sample_hash alpha f' = Some (true, f').
Proof.
  assert (H : wf sample_filter) by evaluate.
  split; [exact H|].
  apply (TestAndAdd_is_Test_then_Add sample_hash alpha sample_filter H).
Defined.

Lemma Add_idempotent_witness :
  wf sample_filter /\
  exists f1 f2,
    Add sample_hash alpha sample_filter = Some (f1, f1) /\
    Add sample_hash alpha f1 = Some (f2, f2) /\
    b f2 = b f1 /\ f2 = f1.
Proof.
  assert (H : wf sample_filter) by evaluate.
  split; [exact H|].
  apply (Add_idempotent sample_hash alpha sample_filter H).
Defined.

Lemma ClearAll_resets_witness :
  wf alpha_filter /\
  exists f',
    ClearAll alpha_filter = Some (f', f') /\
    m f' = m alpha_filter /\ k f' = k alpha_filter /\
    BitSet.Len (b f') = BitSet.Len (b alpha_filter) /\
    (forall i, BitSet.Test (b f') i = false) /\
    New (m alpha_filter) (k alpha_filter) = (Some f', None) /\
    (forall x, Test sample_hash x f' = Some (false, f')) /\
    (forall x, exists f'',
       Add sample_hash x f' = Some (f'', f'') /\
       Test sample_hash x f'' = Some (true, f'')).
Proof.
  assert (H : wf alpha_filter) by evaluate.
  split; [exact H|].
  apply (ClearAll_resets sample_hash alpha_filter H).
Defined.

Lemma bits_monotone_witness :
  wf alpha_filter /\ ~ In OpClearAll sample_calls /\
  exists vs f',
    calls sample_hash sample_calls alpha_filter = Some (vs, f') /\
    (forall j, BitSet.Test (b alpha_filter) j = true ->
               BitSet.Test (b f') j = true).
Proof.
  assert (H : wf alpha_filter) by evaluate.
  assert (Hno : ~ In OpClearAll sample_calls).
  { simpl. intros Hin. repeat destruct Hin as [Hin|Hin]; try discriminate.
    exact Hin. }
  split; [exact H|]. split; [exact Hno|].
  apply (bits_monotone sample_hash sample_calls alpha_filter H Hno).
Defined.

Lemma TestLocations_spec_witness :
  wf alpha_filter /\
  exists r,
    TestLocations [41; 2 ^ 64 - 1] alpha_filter = Some (r, alpha_filter) /\
    (r = true <->
     forall p, In p [41; 2 ^ 64 - 1] ->
       BitSet.Test (b alpha_filter) (p mod m alpha_filter) = true) /\
    (forall p, 0 <= p mod m alpha_filter < m alpha_filter).
Proof.
  assert (H : wf alpha_filter) by evaluate.
  split; [exact H|].
  apply (TestLocations_spec [41; 2 ^ 64 - 1] alpha_filter H).
Defined.

Lemma Test_spec_witness :
  wf alpha_filter /\
  exists r,
    Test sample_hash alpha alpha_filter = Some (r, alpha_filter) /\
    (r = true <->
     forall i, 0 <= i < k alpha_filter ->
       exists l, location sample_hash alpha i alpha_filter
                 = Some (l, alpha_filter) /\
                 BitSet.Test (b alpha_filter) l = true) /\
    ((exists i l, 0 <= i < k alpha_filter /\
        location sample_hash alpha i alpha_filter = Some (l, alpha_filter) /\
        BitSet.Test (b alpha_filter) l = false) -> r = false).
Proof.
  assert (H : wf alpha_filter) by evaluate.
  split; [exact H|].
  apply (Test_spec sample_hash alpha alpha_filter H).
Defined.

Lemma queries_leave_state_witness :
  wf alpha_filter /\ is_query (OpTestString "beta") = true /\
  exists v,
    call sample_hash (OpTestString "beta") alpha_filter
    = Some (v, alpha_filter).
Proof.
  assert (H : wf alpha_filter) by evaluate.
  split; [exact H|]. split; [reflexivity|].
  apply (queries_leave_state sample_hash (OpTestString "beta") alpha_filter
           H eq_refl).
Defined.

(** * Further properties of the code *)

(** ** Salts *)

Lemma to_byte_congr z z' : z mod 256 = z' mod 256 -> to_byte z = to_byte z'.
Proof. intros E. unfold to_byte. rewrite E. reflexivity. Qed.

Lemma shifted_byte_period r q s :
  0 <= s <= 24 ->
  (Z.shiftr (r + 2 ^ 32 * q) s) mod 256 = (Z.shiftr r s) mod 256.
Proof.
  intros Hs. rewrite !Z.shiftr_div_pow2 by lia.
  replace (2 ^ 32) with (2 ^ s * (2 ^ (24 - s) * 256)).
  - rewrite <- Z.mul_assoc, Z.mul_comm, Z.div_add by lia.
    rewrite (Z.mul_comm (2 ^ (24 - s))), <- Z.mul_assoc, (Z.mul_comm 256).
    apply Z.mod_add. lia.
  - rewrite Z.mul_assoc, <- Z.pow_add_r by lia.
    replace (s + (24 - s)) with 24 by lia. reflexivity.
Qed.

Lemma uintToBytes_period r q : uintToBytes (r + 2 ^ 32 * q) = uintToBytes r.
Proof.
  assert (H : forall s, 0 <= s <= 24 ->
    to_byte (Z.shiftr (r + 2 ^ 32 * q) s) = to_byte (Z.shiftr r s)).
  { intros s Hs. apply to_byte_congr, shifted_byte_period, Hs. }
  pose proof (H 0 ltac:(lia)) as H0. rewrite !Z.shiftr_0_r in H0.
  unfold uintToBytes. rewrite H0, (H 8), (H 16), (H 24) by lia.
  reflexivity.
Qed.

Lemma uintToBytes_mod value : uintToBytes (value mod 2 ^ 32) = uintToBytes value.
Proof.
  rewrite (Z.div_mod value (2 ^ 32)) at 2 by lia.
  rewrite Z.add_comm. symmetry. apply uintToBytes_period.
Qed.

(** ** More on sets of cells *)

Lemma Test_set_all_iff bs ls j :
  0 <= j -> Forall (fun l => 0 <= l) ls ->
  BitSet.Test (set_all bs ls) j = true <->
  BitSet.Test bs j = true \/ In j ls.
Proof.
  intros Hj Hpos. split.
  - intros H. destruct (in_dec Z.eq_dec j ls) as [Hin|Hout].
    + right. exact Hin.
    + left. rewrite <- H. symmetry. apply Test_set_all_out; assumption.
  - intros [H|H].
    + apply Test_set_all_mono, H.
    + apply Test_set_all_in; assumption.
Qed.

(** Two bit arrays of one length that agree on every read are equal. *)
Lemma bits_ext (bs bs' : list bool) :
  length bs = length bs' ->
  (forall j, 0 <= j -> BitSet.Test bs j = true <-> BitSet.Test bs' j = true) ->
  bs = bs'.
Proof.
  intros Hlen H. apply list_eq. intros n.
  specialize (H (Z.of_nat n) ltac:(lia)).
  unfold BitSet.Test in H. rewrite Nat2Z.id in H.
  destruct (bs !! n) as [c|] eqn:E, (bs' !! n) as [c'|] eqn:E'.
  - f_equal. destruct c, c'; try reflexivity.
    + symmetry. apply H. reflexivity.
    + apply H. reflexivity.
  - apply lookup_lt_Some in E. apply lookup_ge_None in E'. lia.
  - apply lookup_lt_Some in E'. apply lookup_ge_None in E. lia.
  - reflexivity.
Qed.

Lemma count_set_app bs bs' :
  count_set (bs ++ bs') = count_set bs + count_set bs'.
Proof.
  unfold count_set. rewrite List.filter_app, List.length_app, Nat2Z.inj_add.
  reflexivity.
Qed.

Lemma count_set_replicate_false n : count_set (replicate n false) = 0.
Proof. induction n as [|n IH]; [reflexivity | exact IH]. Qed.

Lemma count_set_insert (bs : list bool) n :
  count_set bs <= count_set (<[n := true]> bs) <= count_set bs + 1.
Proof.
  revert n. induction bs as [|c bs IH]; intros n.
  - destruct n; simpl; lia.
  - destruct n as [|n].
    + unfold count_set. destruct c; simpl; lia.
    + specialize (IH n). unfold count_set in *.
      change (<[S n := true]> (c :: bs)) with (c :: <[n := true]> bs).
      destruct c; simpl; lia.
Qed.

Lemma count_set_SetBit bs i :
  count_set bs <= count_set (BitSet.SetBit bs i) <= count_set bs + 1.
Proof.
  unfold BitSet.SetBit.
  assert (E : count_set (BitSet.extendSetMaybe bs i) = count_set bs).
  { unfold BitSet.extendSetMaybe. destruct (BitSet.Len bs <=? i).
    - rewrite count_set_app, count_set_replicate_false. lia.
    - reflexivity. }
  rewrite <- E. apply count_set_insert.
Qed.

Lemma count_set_set_all bs ls :
  count_set bs <= count_set (set_all bs ls)
  <= count_set bs + Z.of_nat (length ls).
Proof.
  revert bs. induction ls as [|l ls IH]; intros bs; simpl.
  - lia.
  - specialize (IH (BitSet.SetBit bs l)).
    pose proof (count_set_SetBit bs l). lia.
Qed.

Section MoreFacts.

Variable Sum64 : list byte -> Z.

(** Call sequences of any kind return and keep the invariant. *)
Lemma calls_total os f :
  wf f ->
  exists vs f',
    calls Sum64 os f = Some (vs, f') /\ wf f' /\ m f' = m f /\ k f' = k f.
Proof.
  revert f. induction os as [|o os IH]; intros f Hwf; simpl.
  - exists [], f. repeat split; apply Hwf.
  - destruct (call_run Sum64 o f Hwf) as (v & f1 & Hc & Hwf1 & Hm1 & Hk1 & _).
    destruct (IH f1 Hwf1) as (vs & f2 & Hcs & Hwf2 & Hm2 & Hk2).
    exists (v :: vs), f2. unfold bind at 1. rewrite Hc.
    unfold bind at 1. rewrite Hcs.
    split; [reflexivity|]. split; [exact Hwf2|]. split; congruence.
Qed.

(** A run of [Add] calls sets the cells of all the items. *)
Lemma adds_run xs f :
  wf f ->
  exists vs,
    calls Sum64 (map OpAdd xs) f =
    Some (vs, with_bits f
                (set_all (b f) (concat (map (positions Sum64 f) xs)))).
Proof.
  revert f. induction xs as [|x xs IH]; intros f Hwf; simpl.
  - exists []. rewrite with_bits_self. reflexivity.
  - pose proof (wf_Add Sum64 f x Hwf) as Hwf1.
    destruct (IH _ Hwf1) as (vs & Hcs).
    eexists. unfold bind at 1. unfold bind at 1.
    rewrite Add_run by apply wf_m_nonzero, Hwf. unfold ret at 1.
    unfold bind at 1. rewrite Hcs. unfold ret.
    rewrite set_all_app. reflexivity.
Qed.

Lemma in_concat_positions f xs l :
  In l (concat (map (positions Sum64 f) xs)) <->
  exists x, In x xs /\ In l (positions Sum64 f x).
Proof.
  rewrite in_concat. split.
  - intros (ls & Hls & Hl). apply in_map_iff in Hls as (x & <- & Hx).
    exists x. split; assumption.
  - intros (x & Hx & Hl). exists (positions Sum64 f x).
    split; [apply in_map, Hx | exact Hl].
Qed.

Lemma concat_positions_nonneg f xs :
  0 < m f ->
  Forall (fun l => 0 <= l) (concat (map (positions Sum64 f) xs)).
Proof.
  intros Hm. apply List.Forall_forall. intros l Hin.
  apply in_concat_positions in Hin as (x & _ & Hl).
  pose proof (positions_range Sum64 f x Hm) as Hr.
  rewrite List.Forall_forall in Hr. apply Hr in Hl. lia.
Qed.

Lemma concat_positions_range f xs :
  0 < m f ->
  Forall (fun l => 0 <= l < m f) (concat (map (positions Sum64 f) xs)).
Proof.
  intros Hm. apply List.Forall_forall. intros l Hin.
  apply in_concat_positions in Hin as (x & _ & Hl).
  pose proof (positions_range Sum64 f x Hm) as Hr.
  rewrite List.Forall_forall in Hr. apply Hr, Hl.
Qed.

Lemma positions_length f data :
  length (positions Sum64 f data) = Z.to_nat (k f).
Proof. unfold positions. rewrite length_map, length_seqZ. reflexivity. Qed.

End MoreFacts.

Lemma TestLocations_panics p locs f :
  m f = 0 -> TestLocations (p :: locs) f = None.
Proof.
  intros H. unfold TestLocations. simpl.
  unfold bind at 1, get_m. rewrite H. reflexivity.
Qed.

(** ** Statements beyond the specification *)

(** X1. [max] returns the larger of its arguments: the result bounds both
    and is one of them. *)
Theorem max_is_larger (x y : Z) :
  x <= max x y /\ y <= max x y /\ (max x y = x \/ max x y = y) /\
  max x y = max y x.
Proof.
  unfold max.
  destruct (Z.ltb_spec y x), (Z.ltb_spec x y); repeat split; lia.
Qed.

(** X2. Two round indices get the same four salt bytes exactly when they
    agree modulo [2^32]; so the salts of the rounds below [2^32] are
    pairwise distinct. *)
Theorem uintToBytes_same_iff (i j : Z) :
  uintToBytes i = uintToBytes j <-> i mod 2 ^ 32 = j mod 2 ^ 32.
Proof.
  split.
  - intros E. rewrite <- !uintToBytes_value, E. reflexivity.
  - intros E. rewrite <- (uintToBytes_mod i), <- (uintToBytes_mod j), E.
    reflexivity.
Qed.

Section Extras.

Variable Sum64 : list byte -> Z.

(** With [k >= 2^32], the cells of an item are those of its first
    [2^32] rounds. *)
Lemma positions_capped (x : list byte) (f : BloomFilter) (K : Z) (l : Z) :
  K = 2 ^ 32 -> K <= k f ->
  In l (positions Sum64 f x) <->
  In l (positions Sum64 (mkBloomFilter (m f) K (b f)) x).
Proof.
  intros HK Hk. rewrite !in_positions. cbn [m k b]. split.
  - intros (i & Hi & ->). exists (i mod 2 ^ 32).
    split; [rewrite HK; apply Z.mod_pos_bound; lia|].
    unfold position. rewrite uintToBytes_mod. reflexivity.
  - intros (i & Hi & ->). exists i. split; [lia | reflexivity].
Qed.

Lemma rounds_capped (x : list byte) (f : BloomFilter) (K : Z) :
  K = 2 ^ 32 -> wf f -> K <= k f ->
  exists f1 g1 r,
    Add Sum64 x f = Some (f1, f1) /\
    Add Sum64 x (mkBloomFilter (m f) K (b f)) = Some (g1, g1) /\
    b f1 = b g1 /\
    Test Sum64 x f = Some (r, f) /\
    Test Sum64 x (mkBloomFilter (m f) K (b f))
    = Some (r, mkBloomFilter (m f) K (b f)).
Proof.
  intros HK Hwf Hk. pose proof (wf_m_nonzero f Hwf) as Hm.
  destruct Hwf as (Hmr & Hkr & Hlen).
  pose proof (fun l => positions_capped x f K l HK Hk) as Hin.
  remember (mkBloomFilter (m f) K (b f)) as g eqn:Eg.
  assert (Emg : m g = m f) by (rewrite Eg; reflexivity).
  assert (Ebg : b g = b f) by (rewrite Eg; reflexivity).
  assert (Hmg : m g <> 0) by (rewrite Emg; exact Hm).
  exists (with_bits f (set_all (b f) (positions Sum64 f x))).
  exists (with_bits g (set_all (b g) (positions Sum64 g x))).
  exists (all_set (b f) (positions Sum64 f x)).
  split; [apply Add_run, Hm|]. split; [apply Add_run, Hmg|].
  assert (Rf : Forall (fun l => 0 <= l < m f) (positions Sum64 f x))
    by (apply positions_range; lia).
  assert (Rg : Forall (fun l => 0 <= l < m f) (positions Sum64 g x))
    by (rewrite <- Emg; apply positions_range; lia).
  assert (Nf : Forall (fun l => 0 <= l) (positions Sum64 f x))
    by (apply positions_nonneg; lia).
  assert (Ng : Forall (fun l => 0 <= l) (positions Sum64 g x))
    by (apply positions_nonneg; lia).
  split.
  { cbn [b with_bits]. rewrite Ebg. apply bits_ext.
    - apply Nat2Z.inj.
      change (BitSet.Len (set_all (b f) (positions Sum64 f x))
              = BitSet.Len (set_all (b f) (positions Sum64 g x))).
      rewrite !Len_set_all; rewrite ?Hlen; trivial.
    - intros j Hj. rewrite !Test_set_all_iff by assumption.
      rewrite Hin. reflexivity. }
  split; [apply Test_run, Hm|].
  rewrite Test_run by exact Hmg. rewrite Ebg. f_equal. f_equal.
  apply eq_true_iff_eq. rewrite !all_set_true. split.
  - intros H l Hl. apply H, Hin, Hl.
  - intros H l Hl. apply H, Hin, Hl.
Qed.

(** X3. Rounds from [2^32] on repeat earlier rounds.  [location] has
    period [2^32] in the round index; and in a well-formed filter with
    [k >= 2^32], [Add] sets the same cells and [Test] gives the same
    answer as in the filter with the same cells and [k = 2^32]. *)
Theorem rounds_repeat_from_2_32 (x : list byte) (f : BloomFilter) :
  wf f ->
  2 ^ 32 <= k f ->
  (forall i q, location Sum64 x (i + 2 ^ 32 * q) f = location Sum64 x i f) /\
  exists f1 g1 r,
    Add Sum64 x f = Some (f1, f1) /\
    Add Sum64 x (mkBloomFilter (m f) (2 ^ 32) (b f)) = Some (g1, g1) /\
    b f1 = b g1 /\
    Test Sum64 x f = Some (r, f) /\
    Test Sum64 x (mkBloomFilter (m f) (2 ^ 32) (b f))
    = Some (r, mkBloomFilter (m f) (2 ^ 32) (b f)).
Proof.
  intros Hwf Hk. split.
  - intros i q. unfold location. rewrite uintToBytes_period. reflexivity.
  - exact (rounds_capped x f (2 ^ 32) eq_refl Hwf Hk).
Qed.

(** X4. [Add] writes exactly the cells of the item.  After [Add x] on a
    well-formed filter, [m], [k] and the number of cells are as before,
    and a cell is set exactly when it was set before or it is
    [location x i] for some round [i] in [[0, k)]. *)
Theorem Add_sets_exactly (x : list byte) (f : BloomFilter) :
  wf f ->
  exists f',
    Add Sum64 x f = Some (f', f') /\
    m f' = m f /\ k f' = k f /\
    BitSet.Len (b f') = BitSet.Len (b f) /\
    (forall j, 0 <= j ->
       BitSet.Test (b f') j = true <->
       BitSet.Test (b f) j = true \/
       exists i, 0 <= i < k f /\ location Sum64 x i f = Some (j, f)).
Proof.
  intros Hwf. pose proof (wf_m_nonzero f Hwf) as Hm.
  destruct Hwf as (Hmr & Hkr & Hlen).
  exists (with_bits f (set_all (b f) (positions Sum64 f x))).
  split; [apply Add_run, Hm|]. split; [reflexivity|]. split; [reflexivity|].
  split.
  { simpl. apply Len_set_all. rewrite Hlen. apply positions_range. lia. }
  intros j Hj. simpl b.
  rewrite Test_set_all_iff by (try assumption; apply positions_nonneg; lia).
  rewrite in_positions. split.
  - intros [H|(i & Hi & ->)]; [left; exact H|].
    right. exists i. split; [exact Hi | apply location_run, Hm].
  - intros [H|(i & Hi & Hl)]; [left; exact H|].
    right. exists i. split; [exact Hi|].
    rewrite location_run in Hl by exact Hm. congruence.
Qed.

(** X5. Insertions commute.  On a well-formed filter, [Add x] then
    [Add y] leaves the same filter as [Add y] then [Add x]. *)
Theorem Add_commutes (x y : list byte) (f : BloomFilter) :
  wf f ->
  exists f1 f2 g1 g2,
    Add Sum64 x f = Some (f1, f1) /\ Add Sum64 y f1 = Some (f2, f2) /\
    Add Sum64 y f = Some (g1, g1) /\ Add Sum64 x g1 = Some (g2, g2) /\
    f2 = g2.
Proof.
  intros Hwf. pose proof (wf_m_nonzero f Hwf) as Hm.
  assert (Hpos : 0 < m f) by (destruct Hwf as (? & _); lia).
  assert (Hlen : BitSet.Len (b f) = m f) by apply Hwf.
  set (px := positions Sum64 f x). set (py := positions Sum64 f y).
  exists (with_bits f (set_all (b f) px)).
  exists (with_bits f (set_all (set_all (b f) px) py)).
  exists (with_bits f (set_all (b f) py)).
  exists (with_bits f (set_all (set_all (b f) py) px)).
  split; [apply Add_run, Hm|]. split; [apply (Add_run Sum64 y), Hm|].
  split; [apply Add_run, Hm|]. split; [apply (Add_run Sum64 x), Hm|].
  unfold with_bits. f_equal.
  assert (Hx : Forall (fun l => 0 <= l < m f) px)
    by (apply positions_range, Hpos).
  assert (Hy : Forall (fun l => 0 <= l < m f) py)
    by (apply positions_range, Hpos).
  assert (Hx0 : Forall (fun l => 0 <= l) px)
    by (apply positions_nonneg, Hpos).
  assert (Hy0 : Forall (fun l => 0 <= l) py)
    by (apply positions_nonneg, Hpos).
  assert (Lx : BitSet.Len (set_all (b f) px) = m f)
    by (rewrite Len_set_all; rewrite Hlen; trivial).
  assert (Ly : BitSet.Len (set_all (b f) py) = m f)
    by (rewrite Len_set_all; rewrite Hlen; trivial).
  apply bits_ext.
  - apply Nat2Z.inj.
    change (BitSet.Len (set_all (set_all (b f) px) py)
            = BitSet.Len (set_all (set_all (b f) py) px)).
    rewrite !Len_set_all; rewrite ?Lx, ?Ly, ?Hlen; trivial.
  - intros j Hj. rewrite !Test_set_all_iff by assumption. tauto.
Qed.

(** X6. The parameters are fixed for life.  After any sequence of calls,
    [ClearAll] included, on a filter built by [New m k], every call has
    returned, [Cap] returns [m], [HashFunctionNum] returns [k] and the
    bit array still has [m] cells. *)
Theorem parameters_fixed (fm fk : Z) (f : BloomFilter) (os : list op) :
  is_uint fm -> is_uint fk ->
  New fm fk = (Some f, None) ->
  exists vs f',
    calls Sum64 os f = Some (vs, f') /\
    Cap f' = Some (fm, f') /\
    HashFunctionNum f' = Some (fk, f') /\
    BitSet.Len (b f') = fm.
Proof.
  intros Hm Hk HN. pose proof (wf_New fm fk f Hm Hk HN) as Hwf.
  destruct (calls_total Sum64 os f Hwf) as (vs & f' & Hcs & Hwf' & Em & Ek).
  assert (E : m f = fm /\ k f = fk).
  { unfold New in HN.
    destruct (fm <? 1); [discriminate|]. destruct (fk <? 1); [discriminate|].
    injection HN as <-. split; reflexivity. }
  destruct E as (E1 & E2).
  exists vs, f'. split; [exact Hcs|].
  unfold Cap, HashFunctionNum, get_m, get_k. rewrite Em, Ek, E1, E2.
  split; [reflexivity|]. split; [reflexivity|].
  destruct Hwf' as (_ & _ & Hlen). congruence.
Qed.

(** X7. Why [New] rejects [m = 0].  In a filter with [m = 0],
    [TestLocations] panics on every non-empty list, and with at least
    one round [Add], [Test] and [TestAndAdd] panic on every item. *)
Theorem zero_capacity_panics (f : BloomFilter) :
  m f = 0 ->
  (forall p locs, TestLocations (p :: locs) f = None) /\
  (1 <= k f ->
   forall x, Add Sum64 x f = None /\ Test Sum64 x f = None /\
             TestAndAdd Sum64 x f = None).
Proof.
  intros Hm. split.
  - intros p locs. apply TestLocations_panics, Hm.
  - intros Hk x.
    unfold Add, Test, TestAndAdd, rounds, bind at 1 3 5, get_k, ret.
    unfold bind at 1 2 3 4. rewrite seqZ_cons by lia.
    cbn [Add_loop Test_loop TestAndAdd_loop]. unfold bind at 1 3 5.
    rewrite location_panics by exact Hm. repeat split.
Qed.

(** X8. Why [New] rejects [k = 0].  In a filter with [k = 0], whatever
    its [m] and cells, [Test] answers [true] for every item, [TestAndAdd]
    answers [true], and neither it nor [Add] changes anything. *)
Theorem zero_rounds_vacuous (x : list byte) (f : BloomFilter) :
  k f = 0 ->
  Test Sum64 x f = Some (true, f) /\
  Add Sum64 x f = Some (f, f) /\
  TestAndAdd Sum64 x f = Some (true, f).
Proof.
  intros Hk.
  unfold Test, Add, TestAndAdd, rounds, bind, get_k, ret. rewrite Hk.
  repeat split.
Qed.

(** X9. A fresh filter is empty.  On the filter [New m k] returns, no
    cell is set, [Test] and [TestAndAdd] answer [false] for every item,
    and [TestLocations] answers [false] for every non-empty list. *)
Theorem fresh_filter_is_empty (fm fk : Z) (f : BloomFilter) :
  is_uint fm ->
  New fm fk = (Some f, None) ->
  count_set (b f) = 0 /\
  (forall x, Test Sum64 x f = Some (false, f)) /\
  (forall x, exists f', TestAndAdd Sum64 x f = Some (false, f')) /\
  (forall p locs, TestLocations (p :: locs) f = Some (false, f)).
Proof.
  intros Hu HN. unfold New in HN.
  destruct (Z.ltb_spec fm 1) as [|Hm]; [discriminate|].
  destruct (Z.ltb_spec fk 1) as [|Hk]; [discriminate|].
  injection HN as <-.
  set (f := mkBloomFilter fm fk (BitSet.New fm)).
  assert (Hm0 : m f <> 0) by (cbn [m f]; lia).
  split; [apply count_set_replicate_false|].
  split; [|split].
  - intros x. rewrite Test_run by exact Hm0.
    destruct (positions_cons Sum64 f x Hk) as (ls & ->).
    cbn [all_set forallb b f]. rewrite BitSetFacts.Test_New. reflexivity.
  - intros x. rewrite TestAndAdd_run by exact Hm0.
    destruct (positions_cons Sum64 f x Hk) as (ls & ->).
    cbn [all_set forallb b f]. rewrite BitSetFacts.Test_New.
    eexists. reflexivity.
  - intros p locs. rewrite TestLocations_run.
    + cbn [map all_set forallb b f]. rewrite BitSetFacts.Test_New.
      reflexivity.
    + cbn [m f]. unfold is_uint in Hu. lia.
Qed.

(** X10. [TestLocations] on raw hashes agrees with [Test].  With a hash
    of 64-bit values, on a well-formed filter, [TestLocations] applied to
    the unreduced hashes of the [k] rounds of [x] returns what [Test x]
    returns. *)
Theorem TestLocations_of_hashes (x : list byte) (f : BloomFilter) :
  (forall bs, is_uint (Sum64 bs)) ->
  wf f ->
  exists r,
    Test Sum64 x f = Some (r, f) /\
    TestLocations
      (map (fun i => Sum64 (x ++ uintToBytes i)) (seqZ 0 (k f))) f
    = Some (r, f).
Proof.
  intros Hh Hwf. exists (all_set (b f) (positions Sum64 f x)).
  split; [apply Test_run, wf_m_nonzero, Hwf|].
  rewrite TestLocations_run by apply Hwf.
  unfold positions. rewrite List.map_map. f_equal. f_equal. f_equal.
  apply List.map_ext. intros i. unfold position.
  rewrite to_uint_small by apply Hh. reflexivity.
Qed.

(** X12. A filter of one cell saturates.  In a well-formed filter with
    [m = 1], once any item has been added [Test] answers [true] for
    every item. *)
Theorem capacity_one_saturates (x y : list byte) (f : BloomFilter) :
  wf f ->
  m f = 1 ->
  exists f',
    Add Sum64 x f = Some (f', f') /\ Test Sum64 y f' = Some (true, f').
Proof.
  intros Hwf Hm1. pose proof (wf_m_nonzero f Hwf) as Hm.
  assert (Hk : 1 <= k f) by apply Hwf.
  exists (with_bits f (set_all (b f) (positions Sum64 f x))).
  split; [apply Add_run, Hm|].
  rewrite Test_run by exact Hm. cbn [b with_bits].
  rewrite positions_with_bits. f_equal. f_equal.
  apply all_set_true. intros l Hl.
  assert (Hz : forall z l', In l' (positions Sum64 f z) -> l' = 0).
  { intros z l' Hz. apply in_positions in Hz as (i & _ & ->).
    unfold position. rewrite Hm1. apply Z.mod_1_r. }
  rewrite (Hz y l Hl). apply Test_set_all_in; [|lia].
  destruct (positions_cons Sum64 f x Hk) as (ls & E).
  rewrite E. left. apply (Hz x). rewrite E. left. reflexivity.
Qed.

(** X13. Exact membership.  After the items [xs] are added, in order, to
    a fresh filter, [Test y] answers [true] exactly when every round of
    [y] lands on a cell that some round of some added item lands on. *)
Theorem membership_exact
  (fm fk : Z) (f : BloomFilter) (xs : list (list byte)) (y : list byte) :
  is_uint fm -> is_uint fk ->
  New fm fk = (Some f, None) ->
  exists vs f' r,
    calls Sum64 (map OpAdd xs) f = Some (vs, f') /\
    Test Sum64 y f' = Some (r, f') /\
    (r = true <->
     forall i, 0 <= i < fk ->
       exists x j, In x xs /\ 0 <= j < fk /\
                   location Sum64 y i f' = location Sum64 x j f').
Proof.
  intros Hum Huk HN. pose proof (wf_New fm fk f Hum Huk HN) as Hwf.
  pose proof (wf_m_nonzero f Hwf) as Hm.
  assert (Hpos : 0 < m f) by (destruct Hwf as (? & _); lia).
  assert (E : k f = fk /\ b f = BitSet.New fm).
  { unfold New in HN.
    destruct (fm <? 1); [discriminate|]. destruct (fk <? 1); [discriminate|].
    injection HN as <-. split; reflexivity. }
  destruct E as (Ek & Eb).
  destruct (adds_run Sum64 xs f Hwf) as (vs & Hcs).
  set (C := concat (map (positions Sum64 f) xs)) in *.
  exists vs, (with_bits f (set_all (b f) C)).
  exists (all_set (set_all (b f) C) (positions Sum64 f y)).
  split; [exact Hcs|].
  split; [exact (Test_run Sum64 y (with_bits f (set_all (b f) C)) Hm)|].
  rewrite all_set_true. rewrite <- Ek.
  assert (Hcell : forall l, 0 <= l ->
    BitSet.Test (set_all (b f) C) l = true <-> In l C).
  { intros l Hl.
    rewrite Test_set_all_iff by
      (try assumption; apply concat_positions_nonneg, Hpos).
    rewrite Eb, BitSetFacts.Test_New. split; [intros [H|H]|right]; try easy. }
  assert (Hloc : forall z i,
    location Sum64 z i (with_bits f (set_all (b f) C))
    = Some (position Sum64 (m f) z i, with_bits f (set_all (b f) C))).
  { intros z i.
    exact (location_run Sum64 z i (with_bits f (set_all (b f) C)) Hm). }
  split.
  - intros H i Hi.
    assert (Hin : In (position Sum64 (m f) y i) (positions Sum64 f y)).
    { apply in_positions. exists i. split; [exact Hi | reflexivity]. }
    pose proof (H _ Hin) as Ht. apply Hcell in Ht.
    + apply in_concat_positions in Ht as (x & Hx & Hl).
      apply in_positions in Hl as (j & Hj & Hl).
      exists x, j. split; [exact Hx|]. split; [exact Hj|].
      rewrite !Hloc, Hl. reflexivity.
    + apply position_range, Hpos.
  - intros H l Hl. apply in_positions in Hl as (i & Hi & ->).
    destruct (H i Hi) as (x & j & Hx & Hj & Hl).
    rewrite !Hloc in Hl. injection Hl as Hl. rewrite Hl.
    apply Hcell; [apply position_range, Hpos|].
    apply in_concat_positions. exists x. split; [exact Hx|].
    apply in_positions. exists j. split; [exact Hj | reflexivity].
Qed.

(** X14. [Add] fills at most [k] cells.  On a well-formed filter the
    number of set cells does not decrease under [Add x] and grows by at
    most [k]. *)
Theorem Add_fills_at_most_k (x : list byte) (f : BloomFilter) :
  wf f ->
  exists f',
    Add Sum64 x f = Some (f', f') /\
    count_set (b f) <= count_set (b f') <= count_set (b f) + k f.
Proof.
  intros Hwf. exists (with_bits f (set_all (b f) (positions Sum64 f x))).
  split; [apply Add_run, wf_m_nonzero, Hwf|].
  cbn [b with_bits].
  pose proof (count_set_set_all (b f) (positions Sum64 f x)) as H.
  rewrite positions_length in H. destruct Hwf as (_ & Hk & _). lia.
Qed.

(** X15. An item that tests positive is not written again.  On a
    well-formed filter, if [Test x] answers [true] then [Add x] and
    [TestAndAdd x] leave the filter exactly as it is, and [TestAndAdd x]
    answers [true]. *)
Theorem present_item_unchanged (x : list byte) (f : BloomFilter) :
  wf f ->
  Test Sum64 x f = Some (true, f) ->
  Add Sum64 x f = Some (f, f) /\ TestAndAdd Sum64 x f = Some (true, f).
Proof.
  intros Hwf Ht. pose proof (wf_m_nonzero f Hwf) as Hm.
  rewrite Test_run in Ht by exact Hm. injection Ht as Ht.
  rewrite Add_run, TestAndAdd_run by exact Hm.
  rewrite Ht, set_all_id by exact Ht. rewrite with_bits_self.
  split; reflexivity.
Qed.

(** X16. The string methods work on the bytes of the string.  On a
    well-formed filter, after [AddString s] both [TestString s] and
    [Test] on the bytes of [s] answer [true]; and [TestAndAddString s]
    answers what [TestString s] answers on the state before it, leaving
    the state [AddString s] leaves. *)
Theorem string_methods (s : string) (f : BloomFilter) :
  wf f ->
  exists r f1,
    AddString Sum64 s f = Some (f1, f1) /\
    TestString Sum64 s f1 = Some (true, f1) /\
    Test Sum64 (bytes_of_string s) f1 = Some (true, f1) /\
    TestString Sum64 s f = Some (r, f) /\
    TestAndAddString Sum64 s f = Some (r, f1).
Proof.
  intros Hwf. pose proof (wf_m_nonzero f Hwf) as Hm.
  unfold AddString, TestString, TestAndAddString.
  exists (all_set (b f) (positions Sum64 f (bytes_of_string s))).
  exists (with_bits f
            (set_all (b f) (positions Sum64 f (bytes_of_string s)))).
  split; [apply Add_run, Hm|].
  assert (Ht : Test Sum64 (bytes_of_string s)
      (with_bits f (set_all (b f) (positions Sum64 f (bytes_of_string s))))
    = Some (true,
        with_bits f (set_all (b f) (positions Sum64 f (bytes_of_string s))))).
  { rewrite Test_run by exact Hm. cbn [b with_bits].
    rewrite positions_with_bits, all_set_after_Add by exact Hwf.
    reflexivity. }
  split; [exact Ht|]. split; [exact Ht|].
  split; [apply Test_run, Hm | apply TestAndAdd_run, Hm].
Qed.

End Extras.


(** ** The further statements on concrete inputs *)

Lemma rounds_repeat_from_2_32_witness :
  wf many_rounds_filter /\ 2 ^ 32 <= k many_rounds_filter /\
  (forall i q,
     location sample_hash alpha (i + 2 ^ 32 * q) many_rounds_filter
     = location sample_hash alpha i many_rounds_filter) /\
  exists f1 g1 r,
    Add sample_hash alpha many_rounds_filter = Some (f1, f1) /\
    Add sample_hash alpha
      (mkBloomFilter (m many_rounds_filter) (2 ^ 32) (b many_rounds_filter))
    = Some (g1, g1) /\
    b f1 = b g1 /\
    Test sample_hash alpha many_rounds_filter
    = Some (r, many_rounds_filter) /\
    Test sample_hash alpha
      (mkBloomFilter (m many_rounds_filter) (2 ^ 32) (b many_rounds_filter))
    = Some (r, mkBloomFilter (m many_rounds_filter) (2 ^ 32)
                 (b many_rounds_filter)).
Proof.
  assert (H : wf many_rounds_filter) by evaluate.
  assert (Hk : 2 ^ 32 <= k many_rounds_filter) by evaluate.
  split; [exact H|]. split; [exact Hk|].
  apply (rounds_repeat_from_2_32 sample_hash alpha many_rounds_filter H Hk).
Defined.

Lemma Add_sets_exactly_witness :
  wf sample_filter /\
  exists f',
    Add sample_hash alpha sample_filter = Some (f', f') /\
    m f' = m sample_filter /\ k f' = k sample_filter /\
    BitSet.Len (b f') = BitSet.Len (b sample_filter) /\
    (forall j, 0 <= j ->
       BitSet.Test (b f') j = true <->
       BitSet.Test (b sample_filter) j = true \/
       exists i, 0 <= i < k sample_filter /\
         location sample_hash alpha i sample_filter
         = Some (j, sample_filter)).
Proof.
  assert (H : wf sample_filter) by evaluate.
  split; [exact H|].
  apply (Add_sets_exactly sample_hash alpha sample_filter H).
Defined.

Lemma Add_commutes_witness :
  wf sample_filter /\
  exists f1 f2 g1 g2,
    Add sample_hash alpha sample_filter = Some (f1, f1) /\
    Add sample_hash beta f1 = Some (f2, f2) /\
    Add sample_hash beta sample_filter = Some (g1, g1) /\
    Add sample_hash alpha g1 = Some (g2, g2) /\
    f2 = g2.
Proof.
  assert (H : wf sample_filter) by evaluate.
  split; [exact H|].
  apply (Add_commutes sample_hash alpha beta sample_filter H).
Defined.

Lemma parameters_fixed_witness :
  is_uint 100 /\ is_uint 4 /\ New 100 4 = (Some sample_filter, None) /\
  exists vs f',
    calls sample_hash (OpClearAll :: sample_calls) sample_filter
    = Some (vs, f') /\
    Cap f' = Some (100, f') /\
    HashFunctionNum f' = Some (4, f') /\
    BitSet.Len (b f') = 100.
Proof.
  assert (Hm : is_uint 100) by evaluate.
  assert (Hk : is_uint 4) by evaluate.
  split; [exact Hm|]. split; [exact Hk|]. split; [reflexivity|].
  apply (parameters_fixed sample_hash 100 4 sample_filter
           (OpClearAll :: sample_calls) Hm Hk eq_refl).
Defined.

Lemma zero_capacity_panics_witness :
  m no_cells_filter = 0 /\
  (forall p locs, TestLocations (p :: locs) no_cells_filter = None) /\
  (1 <= k no_cells_filter ->
   forall x, Add sample_hash x no_cells_filter = None /\
             Test sample_hash x no_cells_filter = None /\
             TestAndAdd sample_hash x no_cells_filter = None).
Proof.
  split; [reflexivity|].
  apply (zero_capacity_panics sample_hash no_cells_filter eq_refl).
Defined.

Lemma zero_rounds_vacuous_witness :
  k zero_value = 0 /\
  Test sample_hash alpha zero_value = Some (true, zero_value) /\
  Add sample_hash alpha zero_value = Some (zero_value, zero_value) /\
  TestAndAdd sample_hash alpha zero_value = Some (true, zero_value).
Proof.
  split; [reflexivity|].
  apply (zero_rounds_vacuous sample_hash alpha zero_value eq_refl).
Defined.

Lemma fresh_filter_is_empty_witness :
  is_uint 100 /\ New 100 4 = (Some sample_filter, None) /\
  count_set (b sample_filter) = 0 /\
  (forall x, Test sample_hash x sample_filter = Some (false, sample_filter)) /\
  (forall x, exists f',
     TestAndAdd sample_hash x sample_filter = Some (false, f')) /\
  (forall p locs,
     TestLocations (p :: locs) sample_filter = Some (false, sample_filter)).
Proof.
  assert (Hm : is_uint 100) by evaluate.
  split; [exact Hm|]. split; [reflexivity|].
  apply (fresh_filter_is_empty sample_hash 100 4 sample_filter Hm eq_refl).
Defined.

Lemma TestLocations_of_hashes_witness :
  (forall bs, is_uint (sample_hash bs)) /\ wf alpha_filter /\
  exists r,
    Test sample_hash alpha alpha_filter = Some (r, alpha_filter) /\
    TestLocations
      (map (fun i => sample_hash (alpha ++ uintToBytes i))
           (seqZ 0 (k alpha_filter))) alpha_filter
    = Some (r, alpha_filter).
Proof.
  assert (H : wf alpha_filter) by evaluate.
  split; [exact sample_hash_is_uint|]. split; [exact H|].
  apply (TestLocations_of_hashes sample_hash alpha alpha_filter
           sample_hash_is_uint H).
Defined.


Lemma capacity_one_saturates_witness :
  wf one_cell_filter /\ m one_cell_filter = 1 /\
  exists f',
    Add sample_hash alpha one_cell_filter = Some (f', f') /\
    Test sample_hash beta f' = Some (true, f').
Proof.
  assert (H : wf one_cell_filter) by evaluate.
  split; [exact H|]. split; [reflexivity|].
  apply (capacity_one_saturates sample_hash alpha beta one_cell_filter
           H eq_refl).
Defined.

Lemma membership_exact_witness :
  is_uint 100 /\ is_uint 4 /\ New 100 4 = (Some sample_filter, None) /\
  exists vs f' r,
    calls sample_hash (map OpAdd [alpha; beta]) sample_filter
    = Some (vs, f') /\
    Test sample_hash alpha f' = Some (r, f') /\
    (r = true <->
     forall i, 0 <= i < 4 ->
       exists x j, In x [alpha; beta] /\ 0 <= j < 4 /\
         location sample_hash alpha i f' = location sample_hash x j f').
Proof.
  assert (Hm : is_uint 100) by evaluate.
  assert (Hk : is_uint 4) by evaluate.
  split; [exact Hm|]. split; [exact Hk|]. split; [reflexivity|].
  apply (membership_exact sample_hash 100 4 sample_filter [alpha; beta]
           alpha Hm Hk eq_refl).
Defined.

Lemma Add_fills_at_most_k_witness :
  wf alpha_filter /\
  exists f',
    Add sample_hash beta alpha_filter = Some (f', f') /\
    count_set (b alpha_filter) <= count_set (b f')
    <= count_set (b alpha_filter) + k alpha_filter.
Proof.
  assert (H : wf alpha_filter) by evaluate.
  split; [exact H|].
  apply (Add_fills_at_most_k sample_hash beta alpha_filter H).
Defined.

Lemma present_item_unchanged_witness :
  wf alpha_filter /\
  Test sample_hash alpha alpha_filter = Some (true, alpha_filter) /\
  Add sample_hash alpha alpha_filter = Some (alpha_filter, alpha_filter) /\
  TestAndAdd sample_hash alpha alpha_filter = Some (true, alpha_filter).
Proof.
  assert (H : wf alpha_filter) by evaluate.
  split; [exact H|]. split; [reflexivity|].
  apply (present_item_unchanged sample_hash alpha alpha_filter H eq_refl).
Defined.

Lemma string_methods_witness :
  wf sample_filter /\
  exists r f1,
    AddString sample_hash "alpha" sample_filter = Some (f1, f1) /\
    TestString sample_hash "alpha" f1 = Some (true, f1) /\
    Test sample_hash (bytes_of_string "alpha") f1 = Some (true, f1) /\
    TestString sample_hash "alpha" sample_filter
    = Some (r, sample_filter) /\
    TestAndAddString sample_hash "alpha" sample_filter = Some (r, f1).
Proof.
  assert (H : wf sample_filter) by evaluate.
  split; [exact H|].
  apply (string_methods sample_hash "alpha" sample_filter H).
Defined.
